(** * ChebySpec: Gauss-Lobatto points and the discrete Chebyshev transform

    A shallow embedding of [src/ChebySpec.py] ([GLpoints], [findCoeffs]),
    together with the part of numpy the two routines call
    ([np.zeros], [np.ones], array indexing, [chebval]).

    The arithmetic is kept abstract behind the class [Num]: the Python code
    is the same sequence of operations whatever the number type is, and
    what is proved for every number type holds of the binary64 run.
    Binary64 itself is the instance on Rocq's primitive floats, on which
    [findCoeffs] runs as numpy runs it, rounding, infinities and NaN
    included.  The real numbers are a second instance: they are exact
    arithmetic, not the arithmetic the code runs, and serve where a
    statement is explicitly about exact arithmetic.  [np.cos] has no
    binary64 counterpart here: [GLpoints] is stated for an arbitrary
    cosine. *)

From Stdlib Require Import ZArith List Reals Lra Lia.
From Stdlib Require Import PrimFloat Uint63 SpecFloat FloatOps FloatAxioms.
From stdpp Require Import base list.

(** ** Python exceptions and the error monad *)

Inductive pyerr : Set :=
| IndexError
| ZeroDivisionError
| ValueError.

Inductive result (A : Type) : Type :=
| Ok (a : A)
| Raise (e : pyerr).
Arguments Ok {A} a.
Arguments Raise {A} e.

Definition bind {A B : Type} (r : result A) (k : A -> result B) : result B :=
  match r with
  | Ok a => k a
  | Raise e => Raise e
  end.

Declare Scope py_scope.
Delimit Scope py_scope with py.
Notation "'let*' x ':=' r 'in' k" := (bind r (fun x => k))
  (at level 10, x name, r at level 100, k at level 200) : py_scope.
Local Open Scope py_scope.

(** ** The number interface *)

Class Num (F : Type) : Type := {
  of_int : Z -> F;          (* an int literal or variable used as a float *)
  fadd : F -> F -> F;
  fsub : F -> F -> F;
  fmul : F -> F -> F;
  fdiv : F -> F -> F;       (* numpy's float64 [/]: never raises *)
  fneg : F -> F
}.

Class Trig (F : Type) : Type := {
  fpi : F;                  (* np.pi *)
  fcos : F -> F             (* np.cos *)
}.

(** Binary64.  A Python int becomes the nearest float: through the
    primitive conversion of a 63-bit integer below 2^63 in magnitude, and
    by rounding to nearest, ties to even, above.  (An int beyond the range
    of binary64, which Python refuses to convert, is sent to an infinity;
    the code converts array lengths and indices only.) *)
Definition float_of_Z (z : Z) : float :=
  if (Z.abs z <? 2 ^ 63)%Z then
    if (z <? 0)%Z
    then PrimFloat.opp (PrimFloat.of_uint63 (Uint63.of_Z (- z)))
    else PrimFloat.of_uint63 (Uint63.of_Z z)
  else SF2Prim (binary_normalize prec emax z 0 false).

#[export] Instance float_Num : Num float := {|
  of_int := float_of_Z;
  fadd := PrimFloat.add;
  fsub := PrimFloat.sub;
  fmul := PrimFloat.mul;
  fdiv := PrimFloat.div;
  fneg := PrimFloat.opp
|}.

(** Exact real arithmetic: an idealisation, not what the code computes. *)
#[export] Instance R_Num : Num R := {|
  of_int := IZR;
  fadd := Rplus;
  fsub := Rminus;
  fmul := Rmult;
  fdiv := Rdiv;
  fneg := Ropp
|}.

(** The exact constant pi and the exact cosine: not [np.pi] and [np.cos],
    which are binary64. *)
#[export] Instance R_Trig : Trig R := {|
  fpi := PI;
  fcos := cos
|}.

(** ** Arrays, indexing and loops *)

Section Arrays.
Context {F : Type}.

(** [a[i]] for a Python int [i]: a negative index counts from the end. *)
Definition py_index (len : nat) (i : Z) : result nat :=
  if (0 <=? i)%Z && (i <? Z.of_nat len)%Z then Ok (Z.to_nat i)
  else if (- Z.of_nat len <=? i)%Z && (i <? 0)%Z
       then Ok (Z.to_nat (Z.of_nat len + i))
       else Raise IndexError.

Definition getitem (a : list F) (i : Z) : result F :=
  let* n := py_index (length a) i in
  match a !! n with
  | Some v => Ok v
  | None => Raise IndexError
  end.

Definition setitem (a : list F) (i : Z) (v : F) : result (list F) :=
  let* n := py_index (length a) i in
  Ok (<[n := v]> a).

(** [np.zeros(n)], [np.ones(n)]: a negative length is a ValueError. *)
Definition np_full (v : F) (n : Z) : result (list F) :=
  if (n <? 0)%Z then Raise ValueError else Ok (replicate (Z.to_nat n) v).

(** [range(lo, hi)] *)
Definition py_range (lo hi : Z) : list Z :=
  map (fun i => (lo + Z.of_nat i)%Z) (seq 0 (Z.to_nat (hi - lo))).

(** [for i in l: s = body(i, s)], stopping at the first exception. *)
Fixpoint for_each {St : Type} (l : list Z) (body : Z -> St -> result St)
         (s : St) : result St :=
  match l with
  | [] => Ok s
  | i :: l' => let* s' := body i s in for_each l' body s'
  end.
End Arrays.

Section Program.
Context {F : Type} `{Num F}.

Definition np_zeros : Z -> result (list F) := np_full (of_int 0).
Definition np_ones : Z -> result (list F) := np_full (of_int 1).

(** Python's [x / n] for a Python float [x] and a Python int [n]. *)
Definition py_truediv (x : F) (n : Z) : result F :=
  if (n =? 0)%Z then Raise ZeroDivisionError else Ok (fdiv x (of_int n)).

(** [numpy.polynomial.chebyshev.chebval(x, c)] for a scalar [x] and a
    one-dimensional float array [c]: Clenshaw's recursion, as numpy
    writes it.
<<
    if len(c) == 1:   c0 = c[0]; c1 = 0
    elif len(c) == 2: c0 = c[0]; c1 = c[1]
    else:
        x2 = 2*x
        c0 = c[-2]; c1 = c[-1]
        for i in range(3, len(c) + 1):
            tmp = c0
            c0 = c[-i] - c1
            c1 = tmp + c1*x2
    return c0 + c1*x
>> *)
Definition chebval_step (c : list F) (x2 : F) (i : Z) (s : F * F)
  : result (F * F) :=
  let '(c0, c1) := s in
  let tmp := c0 in
  let* ci := getitem c (- i) in
  Ok (fsub ci c1, fadd tmp (fmul c1 x2)).

Definition chebval (x : F) (c : list F) : result F :=
  let len := Z.of_nat (length c) in
  let* s :=
       (if (len =? 1)%Z then
          let* c0 := getitem c 0 in
          Ok (c0, of_int 0)
        else if (len =? 2)%Z then
          let* c0 := getitem c 0 in
          let* c1 := getitem c 1 in
          Ok (c0, c1)
        else
          let x2 := fmul (of_int 2) x in
          let* c0 := getitem c (-2) in
          let* c1 := getitem c (-1) in
          for_each (py_range 3 (len + 1)) (chebval_step c x2) (c0, c1)) in
  let '(c0, c1) := s in
  Ok (fadd c0 (fmul c1 x)).

(** *** [GLpoints] *)

Definition GLpoints_body `{Trig F} (N : Z) (j : Z) (X : list F)
  : result (list F) :=
  let* q := py_truediv (fmul fpi (of_int j)) N in
  setitem X j (fneg (fcos q)).

Definition GLpoints `{Trig F} (N : Z) : result (list F) :=
  let* X := np_zeros (N + 1) in
  for_each (py_range 0 (N + 1)) (GLpoints_body N) X.

(** *** [findCoeffs] *)

(** The weights [c]: ones, with both ends set to 2. *)
Definition weights (N : Z) : result (list F) :=
  let* c := np_ones (N + 1) in
  let* c := setitem c 0 (of_int 2) in
  setitem c (-1) (of_int 2).

(** The one-hot array [d] selecting T_k. *)
Definition onehot (k : Z) : result (list F) :=
  let* d := np_zeros (k + 1) in
  setitem d (-1) (of_int 1).

(** [uhat[k]=uhat[k]+U[j]*cheb.chebval(X[j],d)/c[j]] *)
Definition accumulate (U X c d : list F) (k j : Z) (uhat : list F)
  : result (list F) :=
  let* uk := getitem uhat k in
  let* Uj := getitem U j in
  let* Xj := getitem X j in
  let* t := chebval Xj d in
  let* cj := getitem c j in
  setitem uhat k (fadd uk (fdiv (fmul Uj t) cj)).

Definition findCoeffs_body (U X c : list F) (N : Z) (k : Z) (uhat : list F)
  : result (list F) :=
  let* ck := getitem c k in
  let m := fdiv (of_int 2) (fmul (of_int N) ck) in
  let* d := onehot k in
  let* uhat := for_each (py_range 0 (N + 1)) (accumulate U X c d k) uhat in
  let* uk := getitem uhat k in
  setitem uhat k (fmul m uk).

Definition findCoeffs (U X : list F) : result (list F) :=
  let N := (Z.of_nat (length X) - 1)%Z in
  let* c := weights N in
  let* uhat := np_zeros (N + 1) in
  for_each (py_range 0 (N + 1)) (findCoeffs_body U X c N) uhat.
End Program.

(** ** Runs on binary64 *)

Example findCoeffs_run_N2 :
  findCoeffs [1; 0; 1]%float [-1; 0; 1]%float = Ok [0.5; 0; 0.5]%float.
Proof. vm_compute. reflexivity. Qed.

Example findCoeffs_run_constant :
  findCoeffs [1; 1; 1]%float [-1; 0; 1]%float = Ok [1; 0; 0]%float.
Proof. vm_compute. reflexivity. Qed.

Example findCoeffs_run_N0 :
  findCoeffs [1]%float [-1]%float = Ok [infinity].
Proof. vm_compute. reflexivity. Qed.

Example findCoeffs_run_N0_nan :
  exists v, findCoeffs [0]%float [-1]%float = Ok [v] /\ PrimFloat.is_nan v = true.
Proof. eexists. split; vm_compute; reflexivity. Qed.

(** ** Indexing and loop lemmas *)

Section ArrayFacts.
Context {F : Type}.
Implicit Types (a : list F) (v : F) (i : nat).

Lemma py_index_nat (len i : nat) :
  i < len -> py_index len (Z.of_nat i) = Ok i.
Proof.
  intros Hi. unfold py_index.
  destruct (Z.leb_spec 0 (Z.of_nat i)); [|lia].
  destruct (Z.ltb_spec (Z.of_nat i) (Z.of_nat len)); [|lia].
  simpl. now rewrite Nat2Z.id.
Qed.

Lemma py_index_past (len i : nat) :
  len <= i -> py_index len (Z.of_nat i) = Raise IndexError.
Proof.
  intros Hi. unfold py_index.
  destruct (Z.ltb_spec (Z.of_nat i) (Z.of_nat len)); [lia|].
  rewrite andb_false_r.
  destruct (Z.ltb_spec (Z.of_nat i) 0); [lia|].
  now rewrite andb_false_r.
Qed.

Lemma py_index_neg (len i : nat) :
  1 <= i <= len -> py_index len (- Z.of_nat i) = Ok (len - i).
Proof.
  intros Hi. unfold py_index.
  destruct (Z.leb_spec 0 (- Z.of_nat i)); [lia|]. simpl.
  destruct (Z.leb_spec (- Z.of_nat len) (- Z.of_nat i)); [|lia].
  destruct (Z.ltb_spec (- Z.of_nat i) 0); [|lia].
  simpl. f_equal. lia.
Qed.

Lemma getitem_nat a i v0 :
  i < length a -> getitem a (Z.of_nat i) = Ok (nth i a v0).
Proof.
  intros Hi. unfold getitem. rewrite py_index_nat by done. simpl.
  destruct (nth_lookup_or_length a i v0) as [->|]; [done|lia].
Qed.

Lemma getitem_past a i :
  length a <= i -> getitem a (Z.of_nat i) = Raise IndexError.
Proof. intros Hi. unfold getitem. now rewrite py_index_past. Qed.

Lemma getitem_neg a i v0 :
  1 <= i <= length a -> getitem a (- Z.of_nat i) = Ok (nth (length a - i) a v0).
Proof.
  intros Hi. unfold getitem. rewrite py_index_neg by done. simpl.
  destruct (nth_lookup_or_length a (length a - i) v0) as [->|]; [done|lia].
Qed.

Lemma setitem_nat a i v :
  i < length a -> setitem a (Z.of_nat i) v = Ok (<[i := v]> a).
Proof. intros Hi. unfold setitem. now rewrite py_index_nat. Qed.

Lemma setitem_neg a i v :
  1 <= i <= length a -> setitem a (- Z.of_nat i) v = Ok (<[length a - i := v]> a).
Proof. intros Hi. unfold setitem. now rewrite py_index_neg. Qed.

Lemma setitem_0 a v : a <> [] -> setitem a 0 v = Ok (<[0 := v]> a).
Proof.
  intros Ha. apply (setitem_nat a 0). destruct a; [done | simpl; lia].
Qed.

Lemma getitem_last a v0 :
  a <> [] -> getitem a (-1) = Ok (nth (length a - 1) a v0).
Proof.
  intros Ha. apply (getitem_neg a 1). destruct a; [done | simpl; lia].
Qed.

Lemma setitem_last a v :
  a <> [] -> setitem a (-1) v = Ok (<[length a - 1 := v]> a).
Proof.
  intros Ha. apply (setitem_neg a 1). destruct a; [done | simpl; lia].
Qed.

Lemma np_full_nat v (n : nat) :
  np_full v (Z.of_nat n) = Ok (replicate n v).
Proof.
  unfold np_full. destruct (Z.ltb_spec (Z.of_nat n) 0); [lia|].
  now rewrite Nat2Z.id.
Qed.

Lemma np_full_negative v (n : Z) :
  (n < 0)%Z -> np_full v n = Raise ValueError.
Proof.
  intros Hn. unfold np_full. now destruct (Z.ltb_spec n 0); [|lia].
Qed.

Lemma py_range_nat (n : nat) :
  py_range 0 (Z.of_nat n) = map Z.of_nat (seq 0 n).
Proof.
  unfold py_range. rewrite Z.sub_0_r, Nat2Z.id. now apply map_ext.
Qed.

Lemma py_range_S (n : nat) :
  py_range 0 (Z.of_nat (S n)) = py_range 0 (Z.of_nat n) ++ [Z.of_nat n].
Proof. rewrite !py_range_nat, seq_S, map_app. reflexivity. Qed.

Lemma for_each_app {St : Type} (l1 l2 : list Z) (body : Z -> St -> result St) s :
  for_each (l1 ++ l2) body s
  = let* s' := for_each l1 body s in for_each l2 body s'.
Proof.
  revert s. induction l1 as [|z l1 IH]; intros s; simpl; [done|].
  destruct (body z s); simpl; [apply IH | done].
Qed.

(** A loop whose body never raises is a left fold. *)
Lemma for_each_pure {St : Type} (l : list Z) (body : Z -> St -> result St)
      (g : St -> Z -> St) s :
  (forall (z : Z) s', In z l -> body z s' = Ok (g s' z)) ->
  for_each l body s = Ok (fold_left g l s).
Proof.
  revert s. induction l as [|z l IH]; intros s Hb; simpl; [done|].
  rewrite Hb by (now left). simpl. apply IH.
  intros z' s' Hz. apply Hb. now right.
Qed.

(** A loop over [range(t)] that stores [g i] at index [i] of a fresh array. *)
Lemma fill_loop (body : Z -> list F -> result (list F)) (g : nat -> F)
      (len : nat) v0 :
  (forall i a, i < len -> length a = len -> nth i a v0 = v0 ->
               body (Z.of_nat i) a = Ok (<[i := g i]> a)) ->
  forall t : nat, t <= len ->
    for_each (py_range 0 (Z.of_nat t)) body (replicate len v0)
    = Ok (map g (seq 0 t) ++ replicate (len - t) v0).
Proof.
  intros Hbody t. induction t as [|t IH]; intros Ht.
  - simpl. now rewrite Nat.sub_0_r.
  - rewrite py_range_S, for_each_app, IH by lia. cbn [bind for_each].
    assert (Hlen : length (map g (seq 0 t)) = t)
      by now rewrite length_map, length_seq.
    rewrite Hbody.
    + cbn [bind]. f_equal.
      rewrite insert_app_r_alt by lia. rewrite Hlen, Nat.sub_diag.
      replace (len - t) with (S (len - S t)) by lia.
      rewrite seq_S, map_app. simpl. now rewrite <- app_assoc.
    + lia.
    + rewrite length_app, length_replicate, Hlen. lia.
    + rewrite app_nth2 by lia. rewrite Hlen, Nat.sub_diag.
      replace (len - t) with (S (len - S t)) by lia. reflexivity.
Qed.
End ArrayFacts.

(** ** What the loops of [findCoeffs] compute, for any number type *)

Section Characterisation.
Context {F : Type} `{Num F}.
Implicit Types (U X uhat : list F) (n k j t : nat).

Abbreviation zero := (of_int 0).
Abbreviation one := (of_int 1).
Abbreviation two := (of_int 2).

(** The weight array for [N = n], and its entries. *)
Definition wlist n : list F := <[n := two]> (<[0 := two]> (replicate (S n) one)).

Definition cw n k : F :=
  if (k =? 0)%nat || (k =? n)%nat then two else one.

Lemma length_wlist n : length (wlist n) = S n.
Proof. unfold wlist. now rewrite !length_insert, length_replicate. Qed.

Lemma nth_wlist n k d : k <= n -> nth k (wlist n) d = cw n k.
Proof.
  intros Hk. apply nth_lookup_Some. unfold wlist, cw.
  destruct (Nat.eqb_spec k n) as [->|Hkn].
  - rewrite orb_true_r. apply list_lookup_insert_eq.
    rewrite length_insert, length_replicate. lia.
  - rewrite orb_false_r, list_lookup_insert_ne by done.
    destruct (Nat.eqb_spec k 0) as [->|Hk0].
    + apply list_lookup_insert_eq. rewrite length_replicate. lia.
    + rewrite list_lookup_insert_ne by done.
      apply lookup_replicate_2. lia.
Qed.

Lemma weights_spec n : weights (Z.of_nat n) = Ok (wlist n).
Proof.
  unfold weights, np_ones.
  replace (Z.of_nat n + 1)%Z with (Z.of_nat (S n)) by lia.
  rewrite np_full_nat. cbn [bind].
  rewrite setitem_0 by done. cbn [bind].
  rewrite setitem_last by done.
  rewrite length_insert, length_replicate. unfold wlist.
  now replace (S n - 1) with n by lia.
Qed.

Lemma weights_empty : weights (-1) = Raise IndexError.
Proof. reflexivity. Qed.

(** The array [d] built for index [k]. *)
Definition dlist k : list F := <[k := one]> (replicate (S k) zero).

Lemma length_dlist k : length (dlist k) = S k.
Proof. unfold dlist. now rewrite length_insert, length_replicate. Qed.

Lemma nth_dlist_last k d : nth k (dlist k) d = one.
Proof.
  apply nth_lookup_Some, list_lookup_insert_eq.
  rewrite length_replicate. lia.
Qed.

Lemma nth_dlist_before k j d : j < k -> nth j (dlist k) d = zero.
Proof.
  intros Hj. apply nth_lookup_Some. unfold dlist.
  rewrite list_lookup_insert_ne by lia. apply lookup_replicate_2. lia.
Qed.

Lemma onehot_spec k : onehot (Z.of_nat k) = Ok (dlist k).
Proof.
  unfold onehot, np_zeros.
  replace (Z.of_nat k + 1)%Z with (Z.of_nat (S k)) by lia.
  rewrite np_full_nat. cbn [bind].
  rewrite setitem_last by done.
  rewrite length_replicate. unfold dlist.
  now replace (S k - 1) with k by lia.
Qed.

(** [chebval] on a one-hot array: every coefficient read inside the loop
    is zero, so the recursion is the iteration of one step. *)
Definition clenshaw_step (x2 : F) (s : F * F) : F * F :=
  (fsub zero (snd s), fadd (fst s) (fmul (snd s) x2)).

Definition chebval_onehot k (x : F) : F :=
  match k with
  | 0 => fadd one (fmul zero x)
  | S k' =>
      let s := Nat.iter k' (clenshaw_step (fmul two x)) (zero, one) in
      fadd (fst s) (fmul (snd s) x)
  end.

Lemma fold_left_iter {A B : Type} (f : A -> A) (l : list B) (a : A) :
  fold_left (fun s _ => f s) l a = Nat.iter (length l) f a.
Proof.
  revert a. induction l as [|b l IH]; intros a; simpl fold_left; [done|].
  rewrite IH. simpl length. now rewrite Nat.iter_succ_r.
Qed.

Lemma chebval_onehot_spec k (x : F) :
  chebval x (dlist k) = Ok (chebval_onehot k x).
Proof.
  unfold chebval. rewrite length_dlist.
  destruct k as [|[|k]].
  - reflexivity.
  - reflexivity.
  - destruct (Z.eqb_spec (Z.of_nat (S (S (S k)))) 1); [lia|].
    destruct (Z.eqb_spec (Z.of_nat (S (S (S k)))) 2); [lia|].
    change (-2)%Z with (- Z.of_nat 2)%Z.
    rewrite (getitem_neg _ 2 zero) by (rewrite length_dlist; lia).
    rewrite (getitem_last _ zero) by done.
    rewrite length_dlist.
    replace (S (S (S k)) - 1) with (S (S k)) by lia.
    rewrite nth_dlist_last, nth_dlist_before by lia. cbn [bind].
    rewrite (for_each_pure _ _ (fun s _ => clenshaw_step (fmul two x) s)).
    + rewrite fold_left_iter. unfold py_range.
      rewrite length_map, length_seq.
      replace (Z.to_nat (Z.of_nat (S (S (S k))) + 1 - 3)) with (S k) by lia.
      cbn [bind]. unfold chebval_onehot.
      now destruct (Nat.iter (S k) _ _).
    + intros z [c0 c1] Hz. unfold py_range in Hz.
      apply in_map_iff in Hz as (i & <- & Hi). apply in_seq in Hi.
      unfold chebval_step.
      replace (3 + Z.of_nat i)%Z with (Z.of_nat (3 + i)) by lia.
      rewrite (getitem_neg _ _ zero) by (rewrite length_dlist; lia).
      rewrite length_dlist, nth_dlist_before by lia. reflexivity.
Qed.

(** One term of the quadrature sum, the partial sums in the order the
    inner loop adds them, and the coefficient the outer loop stores. *)
Definition term n U X k j : F :=
  fdiv (fmul (nth j U zero) (chebval_onehot k (nth j X zero))) (cw n j).

Definition partial_sum n U X k t (acc : F) : F :=
  fold_left (fun a j => fadd a (term n U X k j)) (seq 0 t) acc.

Definition coeff n U X k : F :=
  fmul (fdiv two (fmul (of_int (Z.of_nat n)) (cw n k)))
       (partial_sum n U X k (S n) zero).

Lemma partial_sum_S n U X k t acc :
  partial_sum n U X k (S t) acc
  = fadd (partial_sum n U X k t acc) (term n U X k t).
Proof. unfold partial_sum. now rewrite seq_S, fold_left_app. Qed.

Lemma accumulate_spec n U X k j uhat :
  length X = S n -> j < length U -> j <= n -> k < length uhat ->
  accumulate U X (wlist n) (dlist k) (Z.of_nat k) (Z.of_nat j) uhat
  = Ok (<[k := fadd (nth k uhat zero) (term n U X k j)]> uhat).
Proof.
  intros HX HU Hj Hk. unfold accumulate.
  rewrite (getitem_nat uhat k zero) by done. cbn [bind].
  rewrite (getitem_nat U j zero) by done. cbn [bind].
  rewrite (getitem_nat X j zero) by lia. cbn [bind].
  rewrite chebval_onehot_spec. cbn [bind].
  rewrite (getitem_nat _ j zero) by (rewrite length_wlist; lia). cbn [bind].
  rewrite nth_wlist by done.
  now apply setitem_nat.
Qed.

Lemma accumulate_short U X c d k uhat :
  k < length uhat ->
  accumulate U X c d (Z.of_nat k) (Z.of_nat (length U)) uhat = Raise IndexError.
Proof.
  intros Hk. unfold accumulate.
  rewrite (getitem_nat uhat k zero) by done. cbn [bind].
  now rewrite getitem_past.
Qed.

Lemma inner_loop_spec n U X k uhat t :
  length X = S n -> t <= length U -> t <= S n -> k < length uhat ->
  for_each (py_range 0 (Z.of_nat t))
           (accumulate U X (wlist n) (dlist k) (Z.of_nat k)) uhat
  = Ok (<[k := partial_sum n U X k t (nth k uhat zero)]> uhat).
Proof.
  intros HX HU Ht Hk. induction t as [|t IH].
  - simpl. f_equal. symmetry. apply list_insert_id.
    destruct (nth_lookup_or_length uhat k zero); [done | lia].
  - rewrite py_range_S, for_each_app, IH by lia. cbn [bind for_each].
    rewrite (accumulate_spec n) by (rewrite ?length_insert; lia).
    cbn [bind]. f_equal.
    rewrite list_insert_insert_eq, partial_sum_S. f_equal. f_equal.
    apply nth_lookup_Some, list_lookup_insert_eq. lia.
Qed.

Lemma inner_loop_short n U X k uhat :
  length X = S n -> length U <= n -> k < length uhat ->
  for_each (py_range 0 (Z.of_nat (S n)))
           (accumulate U X (wlist n) (dlist k) (Z.of_nat k)) uhat
  = Raise IndexError.
Proof.
  intros HX HU Hk. rewrite py_range_nat.
  replace (S n) with (length U + S (n - length U)) by lia.
  rewrite seq_app, map_app, for_each_app, <- py_range_nat.
  rewrite (inner_loop_spec n) by lia. cbn [bind plus seq map for_each].
  rewrite accumulate_short; [done|]. rewrite length_insert. lia.
Qed.

Lemma findCoeffs_body_spec n U X k uhat :
  length X = S n -> S n <= length U -> k <= n -> k < length uhat ->
  findCoeffs_body U X (wlist n) (Z.of_nat n) (Z.of_nat k) uhat
  = Ok (<[k := fmul (fdiv two (fmul (of_int (Z.of_nat n)) (cw n k)))
                    (partial_sum n U X k (S n) (nth k uhat zero))]> uhat).
Proof.
  intros HX HU Hk Hlen. unfold findCoeffs_body.
  rewrite (getitem_nat _ k zero) by (rewrite length_wlist; lia). cbn [bind].
  rewrite nth_wlist, onehot_spec by done. cbn [bind].
  replace (Z.of_nat n + 1)%Z with (Z.of_nat (S n)) by lia.
  rewrite (inner_loop_spec n) by lia. cbn [bind].
  rewrite (getitem_nat _ k zero) by (rewrite length_insert; lia). cbn [bind].
  rewrite setitem_nat by (rewrite length_insert; lia).
  rewrite list_insert_insert_eq. do 3 f_equal.
  apply nth_lookup_Some, list_lookup_insert_eq. lia.
Qed.

Lemma findCoeffs_body_short n U X k uhat :
  length X = S n -> length U <= n -> k <= n -> k < length uhat ->
  findCoeffs_body U X (wlist n) (Z.of_nat n) (Z.of_nat k) uhat
  = Raise IndexError.
Proof.
  intros HX HU Hk Hlen. unfold findCoeffs_body.
  rewrite (getitem_nat _ k zero) by (rewrite length_wlist; lia). cbn [bind].
  rewrite onehot_spec. cbn [bind].
  replace (Z.of_nat n + 1)%Z with (Z.of_nat (S n)) by lia.
  now rewrite (inner_loop_short n).
Qed.

Lemma outer_loop_spec n U X t :
  length X = S n -> S n <= length U -> t <= S n ->
  for_each (py_range 0 (Z.of_nat t))
           (findCoeffs_body U X (wlist n) (Z.of_nat n)) (replicate (S n) zero)
  = Ok (map (coeff n U X) (seq 0 t) ++ replicate (S n - t) zero).
Proof.
  intros HX HU Ht. apply fill_loop; [|done].
  intros k uhat Hk Hlen Hzero.
  rewrite findCoeffs_body_spec by lia. now rewrite Hzero.
Qed.

(** [findCoeffs] on inputs of the documented shape. *)
Lemma findCoeffs_spec n U X :
  length X = S n -> S n <= length U ->
  findCoeffs U X = Ok (map (coeff n U X) (seq 0 (S n))).
Proof.
  intros HX HU. unfold findCoeffs. rewrite HX.
  replace (Z.of_nat (S n) - 1)%Z with (Z.of_nat n) by lia.
  rewrite weights_spec. cbn [bind]. unfold np_zeros.
  replace (Z.of_nat n + 1)%Z with (Z.of_nat (S n)) by lia.
  rewrite np_full_nat. cbn [bind].
  rewrite outer_loop_spec by lia.
  now rewrite Nat.sub_diag, app_nil_r.
Qed.

(** Too few samples: the first pass of the inner loop runs off [U]. *)
Lemma findCoeffs_short U X :
  length U < length X -> findCoeffs U X = Raise IndexError.
Proof.
  intros HU. destruct (length X) as [|n] eqn:HX; [lia|].
  unfold findCoeffs. rewrite HX.
  replace (Z.of_nat (S n) - 1)%Z with (Z.of_nat n) by lia.
  rewrite weights_spec. cbn [bind]. unfold np_zeros.
  replace (Z.of_nat n + 1)%Z with (Z.of_nat (S n)) by lia.
  rewrite np_full_nat. cbn [bind].
  rewrite py_range_nat. cbn [seq map for_each].
  change (Z.of_nat 0) with 0%Z at 1.
  rewrite (findCoeffs_body_short n U X 0); [done| lia..|].
  rewrite length_replicate. lia.
Qed.

(** An empty grid: [c[0]=2] is out of range. *)
Lemma findCoeffs_empty U : findCoeffs U [] = Raise IndexError.
Proof. reflexivity. Qed.

Lemma length_coeffs n U X :
  length (map (coeff n U X) (seq 0 (S n))) = S n.
Proof. now rewrite length_map, length_seq. Qed.

Lemma nth_coeffs n U X k d :
  k <= n -> nth k (map (coeff n U X) (seq 0 (S n))) d = coeff n U X k.
Proof.
  intros Hk. rewrite (nth_indep _ d (coeff n U X 0))
    by (rewrite length_coeffs; lia).
  rewrite (map_nth (coeff n U X) (seq 0 (S n)) 0 k), seq_nth by lia.
  reflexivity.
Qed.
End Characterisation.

(** ** What the loop of [GLpoints] computes, for any number type *)

Section GridCharacterisation.
Context {F : Type} `{Num F} `{Trig F}.

(** The value stored at index [j]: [-np.cos(np.pi*j/N)]. *)
Definition glpoint (N : Z) (j : nat) : F :=
  fneg (fcos (fdiv (fmul fpi (of_int (Z.of_nat j))) (of_int N))).

Lemma GLpoints_body_spec (N : Z) (j : nat) (X : list F) :
  N <> 0%Z -> j < length X ->
  GLpoints_body N (Z.of_nat j) X = Ok (<[j := glpoint N j]> X).
Proof.
  intros HN Hj. unfold GLpoints_body, py_truediv.
  destruct (Z.eqb_spec N 0); [done|]. cbn [bind].
  now apply setitem_nat.
Qed.

Lemma GLpoints_spec (n : nat) :
  1 <= n ->
  GLpoints (Z.of_nat n) = Ok (map (glpoint (Z.of_nat n)) (seq 0 (S n))).
Proof.
  intros Hn. unfold GLpoints, np_zeros.
  replace (Z.of_nat n + 1)%Z with (Z.of_nat (S n)) by lia.
  rewrite np_full_nat. cbn [bind].
  rewrite (fill_loop _ (glpoint (Z.of_nat n))) by
    (try lia; intros; apply GLpoints_body_spec; lia).
  now rewrite Nat.sub_diag, app_nil_r.
Qed.

(** [N = 0]: the first pass divides [np.pi*0] by the Python int 0. *)
Lemma GLpoints_zero : GLpoints 0 = Raise ZeroDivisionError.
Proof. reflexivity. Qed.

(** [N = -1]: [np.zeros(0)] and an empty [range(0)]. *)
Lemma GLpoints_minus_one : GLpoints (-1) = Ok [].
Proof. reflexivity. Qed.

(** [N <= -2]: [np.zeros] refuses a negative length. *)
Lemma GLpoints_negative (N : Z) :
  (N <= -2)%Z -> GLpoints N = Raise ValueError.
Proof.
  intros HN. unfold GLpoints, np_zeros.
  now rewrite np_full_negative by lia.
Qed.

Lemma length_glpoints (N : Z) (n : nat) :
  length (map (glpoint N) (seq 0 (S n))) = S n.
Proof. now rewrite length_map, length_seq. Qed.

Lemma nth_glpoints (N : Z) (n j : nat) d :
  j <= n -> nth j (map (glpoint N) (seq 0 (S n))) d = glpoint N j.
Proof.
  intros Hj. rewrite (nth_indep _ d (glpoint N 0))
    by (rewrite length_glpoints; lia).
  rewrite (map_nth (glpoint N) (seq 0 (S n)) 0 j), seq_nth by lia.
  reflexivity.
Qed.
End GridCharacterisation.

(** ** Exact arithmetic: Chebyshev polynomials and Clenshaw's recursion *)

Section Chebyshev.
Local Open Scope R_scope.

(** [(T_k x, T_(k+1) x)] by the three-term recurrence. *)
Fixpoint cheb_pair (k : nat) (x : R) : R * R :=
  match k with
  | O => (1, x)
  | S k' => let p := cheb_pair k' x in (snd p, 2 * x * snd p - fst p)
  end.

Definition cheb_T (k : nat) (x : R) : R := fst (cheb_pair k x).

Lemma cheb_T_0 x : cheb_T 0 x = 1.
Proof. reflexivity. Qed.

Lemma cheb_T_1 x : cheb_T 1 x = x.
Proof. reflexivity. Qed.

Lemma cheb_T_SS k x :
  cheb_T (S (S k)) x = 2 * x * cheb_T (S k) x - cheb_T k x.
Proof. reflexivity. Qed.

(** [(U_(t-1) x, U_t x)]: the polynomials Clenshaw's recursion carries
    when the only nonzero coefficient is the last one. *)
Fixpoint chebU_pair (t : nat) (x : R) : R * R :=
  match t with
  | O => (0, 1)
  | S t' => let p := chebU_pair t' x in (snd p, 2 * x * snd p - fst p)
  end.

Lemma clenshaw_iter t x :
  Nat.iter t (clenshaw_step (fmul (of_int 2) x)) (of_int 0, of_int 1)
  = (- fst (chebU_pair t x), snd (chebU_pair t x)).
Proof.
  induction t as [|t IH].
  - simpl. f_equal. ring.
  - rewrite Nat.iter_succ, IH. unfold clenshaw_step. simpl.
    f_equal; ring.
Qed.

Lemma cheb_T_U t x :
  cheb_pair (S t) x
  = (x * snd (chebU_pair t x) - fst (chebU_pair t x),
     x * snd (chebU_pair (S t) x) - fst (chebU_pair (S t) x)).
Proof.
  induction t as [|t IH].
  - simpl. f_equal; ring.
  - change (cheb_pair (S (S t)) x)
      with (snd (cheb_pair (S t) x),
            2 * x * snd (cheb_pair (S t) x) - fst (cheb_pair (S t) x)).
    rewrite IH. simpl. f_equal. ring.
Qed.

(** numpy's evaluator, given the one-hot array, computes T_k. *)
Lemma chebval_onehot_R k x : chebval_onehot k x = cheb_T k x.
Proof.
  destruct k as [|t]; unfold chebval_onehot, cheb_T.
  - simpl. ring.
  - rewrite clenshaw_iter, cheb_T_U. simpl. ring.
Qed.

Lemma chebval_is_cheb_T k x : chebval x (dlist k) = Ok (cheb_T k x).
Proof. now rewrite chebval_onehot_spec, chebval_onehot_R. Qed.

(** The inner loop's sum is the usual finite sum. *)
Lemma partial_sum_R n (U X : list R) k t :
  partial_sum n U X k (S t) 0 = sum_f_R0 (term n U X k) t.
Proof.
  induction t as [|t IH].
  - unfold partial_sum. simpl. ring.
  - rewrite partial_sum_S, IH. reflexivity.
Qed.

(** The quadrature weights, in the words of the specification. *)
Definition quad_weight (N j : nat) : R :=
  if Nat.eq_dec j 0%nat then 2 else if Nat.eq_dec j N then 2 else 1.

Lemma cw_quad_weight n j : cw n j = quad_weight n j.
Proof.
  unfold cw, quad_weight.
  destruct (Nat.eqb_spec j 0), (Nat.eqb_spec j n);
    destruct (Nat.eq_dec j 0%nat), (Nat.eq_dec j n); simpl; congruence.
Qed.

Lemma quad_weight_pos N j : 0 < quad_weight N j.
Proof.
  unfold quad_weight.
  destruct (Nat.eq_dec j 0%nat), (Nat.eq_dec j N); lra.
Qed.

Lemma coeff_R n (U X : list R) k :
  coeff n U X k
  = 2 / (INR n * quad_weight n k)
    * sum_f_R0 (fun j => nth j U 0 * cheb_T k (nth j X 0) / quad_weight n j) n.
Proof.
  unfold coeff. rewrite partial_sum_R, cw_quad_weight.
  simpl. rewrite <- INR_IZR_INZ. f_equal.
  apply sum_eq. intros j _. unfold term.
  now rewrite cw_quad_weight, chebval_onehot_R.
Qed.
End Chebyshev.

(** ** Exact arithmetic: the Gauss-Lobatto grid *)

Section Grid.
Local Open Scope R_scope.
Implicit Types (N j k m : nat).

(** The angle of node [j]. *)
Definition theta N j : R := PI * INR j / INR N.

Lemma glpoint_R N j : glpoint (Z.of_nat N) j = - cos (theta N j).
Proof.
  unfold glpoint, theta. simpl. now rewrite <- !INR_IZR_INZ.
Qed.

Lemma INR_pos N : (1 <= N)%nat -> 0 < INR N.
Proof. intros HN. apply lt_0_INR. lia. Qed.

Lemma theta_0 N : theta N 0 = 0.
Proof. unfold theta. simpl. unfold Rdiv. ring. Qed.

Lemma theta_N N : (1 <= N)%nat -> theta N N = PI.
Proof.
  intros HN. unfold theta. field.
  pose proof (INR_pos N HN). lra.
Qed.

Lemma theta_lt N i j :
  (1 <= N)%nat -> (i < j)%nat -> theta N i < theta N j.
Proof.
  intros HN Hij. unfold theta, Rdiv.
  apply Rmult_lt_compat_r.
  - apply Rinv_0_lt_compat, INR_pos, HN.
  - apply Rmult_lt_compat_l; [apply PI_RGT_0 | now apply lt_INR].
Qed.

Lemma theta_range N j :
  (1 <= N)%nat -> (j <= N)%nat -> 0 <= theta N j <= PI.
Proof.
  intros HN Hj. split.
  - destruct j as [|j]; [rewrite theta_0; lra|].
    left. rewrite <- (theta_0 N). apply theta_lt; [done | lia].
  - destruct (Nat.eq_dec j N) as [->|Hne]; [rewrite theta_N by done; lra|].
    left. rewrite <- (theta_N N) by done. apply theta_lt; [done | lia].
Qed.

Lemma theta_reflect N j :
  (1 <= N)%nat -> (j <= N)%nat -> theta N (N - j) = PI - theta N j.
Proof.
  intros HN Hj. unfold theta. rewrite minus_INR by done. field.
  pose proof (INR_pos N HN). lra.
Qed.

Lemma cos_reflect x : cos (PI - x) = - cos x.
Proof. rewrite cos_minus, cos_PI, sin_PI. ring. Qed.

Lemma grid_increasing N i j :
  (1 <= N)%nat -> (i < j)%nat -> (j <= N)%nat ->
  - cos (theta N i) < - cos (theta N j).
Proof.
  intros HN Hij Hj. apply Ropp_lt_contravar.
  apply cos_decreasing_1; try apply theta_range; try lia.
  now apply theta_lt.
Qed.
End Grid.

(** ** Exact arithmetic: discrete orthogonality on the grid *)

Section Orthogonality.
Local Open Scope R_scope.
Implicit Types (N j k m : nat) (p : Z).

Lemma cos_product a b : cos a * cos b = (cos (a - b) + cos (a + b)) / 2.
Proof. rewrite cos_minus, cos_plus. field. Qed.

Lemma sin_shift a b : sin (a + b) - sin (a - b) = 2 * cos a * sin b.
Proof. rewrite sin_plus, sin_minus. ring. Qed.

(** T_k (cos phi) = cos (k phi). *)
Lemma cheb_pair_cos k phi :
  cheb_pair k (cos phi) = (cos (INR k * phi), cos (INR (S k) * phi)).
Proof.
  induction k as [|k IH].
  - simpl. now rewrite Rmult_0_l, Rmult_1_l, cos_0.
  - change (cheb_pair (S k) (cos phi))
      with (snd (cheb_pair k (cos phi)),
            2 * cos phi * snd (cheb_pair k (cos phi))
            - fst (cheb_pair k (cos phi))).
    rewrite IH. cbn [fst snd]. f_equal.
    replace (INR (S (S k)) * phi) with (INR (S k) * phi + phi)
      by (rewrite (S_INR (S k)); ring).
    replace (INR k * phi) with (INR (S k) * phi - phi)
      by (rewrite (S_INR k); ring).
    rewrite cos_plus, cos_minus. ring.
Qed.

Lemma cheb_T_cos k phi : cheb_T k (cos phi) = cos (INR k * phi).
Proof. unfold cheb_T. now rewrite cheb_pair_cos. Qed.

Lemma sin_int_PI p : sin (IZR p * PI) = 0.
Proof. apply sin_eq_0_1. now exists p. Qed.

(** [(-1)^k], as a cosine. *)
Definition sgn k : R := cos (INR k * PI).

Lemma sgn_square k : sgn k * sgn k = 1.
Proof.
  unfold sgn. pose proof (sin2_cos2 (INR k * PI)) as Hsc.
  rewrite INR_IZR_INZ, sin_int_PI in Hsc. unfold Rsqr in Hsc.
  rewrite INR_IZR_INZ. lra.
Qed.

Lemma cheb_T_grid N k j :
  cheb_T k (- cos (theta N j)) = sgn k * cos (INR k * theta N j).
Proof.
  rewrite <- neg_cos, cheb_T_cos, Rmult_plus_distr_l, cos_plus.
  rewrite (INR_IZR_INZ k) at 4. rewrite sin_int_PI. unfold sgn. ring.
Qed.

(** The quadrature sum: both end terms count for one half. *)
Definition wsum N (f : nat -> R) : R :=
  sum_f_R0 (fun j => f j / quad_weight N j) N.

Lemma sum_indicator (a : nat) (c : R) (M : nat) :
  sum_f_R0 (fun j => if Nat.eq_dec j a then c else 0) M
  = if le_dec a M then c else 0.
Proof.
  induction M as [|M IH].
  - cbn [sum_f_R0]. destruct (Nat.eq_dec 0%nat a), (le_dec a 0%nat);
      try reflexivity; lia.
  - rewrite tech5, IH.
    destruct (le_dec a M), (Nat.eq_dec (S M) a), (le_dec a (S M));
      try lia; ring.
Qed.

Lemma wsum_trapezoid N (f : nat -> R) :
  (1 <= N)%nat -> wsum N f = sum_f_R0 f N - (f 0%nat + f N) / 2.
Proof.
  intros HN. unfold wsum.
  rewrite (sum_eq _ (fun j => f j
              - ((if Nat.eq_dec j 0%nat then f 0%nat / 2 else 0)
                 + (if Nat.eq_dec j N then f N / 2 else 0)))).
  - rewrite minus_sum, plus_sum, !sum_indicator.
    destruct (le_dec 0%nat N), (le_dec N N); try lia. field.
  - intros j _. unfold quad_weight.
    destruct (Nat.eq_dec j 0%nat) as [Hj0|], (Nat.eq_dec j N) as [HjN|];
      try (exfalso; lia); subst; field.
Qed.

Lemma wsum_lin N (A : R) (f g : nat -> R) :
  wsum N (fun j => A * (f j + g j)) = A * (wsum N f + wsum N g).
Proof.
  unfold wsum. generalize (quad_weight N) as w. intros w.
  induction N as [|M IH].
  - simpl. unfold Rdiv. ring.
  - rewrite !tech5, IH. unfold Rdiv. ring.
Qed.

Lemma wsum_one N (f : nat -> R) :
  (1 <= N)%nat -> (forall j, f j = 1) -> wsum N f = INR N.
Proof.
  intros HN Hf. rewrite wsum_trapezoid by done.
  rewrite (sum_eq f (fun _ => 1)) by (intros; apply Hf).
  rewrite sum_cte, S_INR, !Hf. lra.
Qed.

(** Lagrange's identity for a sum of cosines. *)
Lemma cos_sum alpha n :
  2 * sin (alpha / 2) * sum_f_R0 (fun j => cos (INR j * alpha)) n
  = sin ((INR n + 1 / 2) * alpha) + sin (alpha / 2).
Proof.
  induction n as [|n IH].
  - simpl. rewrite Rmult_0_l, cos_0.
    replace ((0 + 1 / 2) * alpha) with (alpha / 2) by field. ring.
  - rewrite tech5, Rmult_plus_distr_l, IH.
    replace ((INR (S n) + 1 / 2) * alpha)
      with (INR (S n) * alpha + alpha / 2) by field.
    replace ((INR n + 1 / 2) * alpha)
      with (INR (S n) * alpha - alpha / 2) by (rewrite S_INR; field).
    pose proof (sin_shift (INR (S n) * alpha) (alpha / 2)). lra.
Qed.

Lemma wsum_cos_zero N alpha :
  (1 <= N)%nat -> sin (INR N * alpha) = 0 -> sin (alpha / 2) <> 0 ->
  wsum N (fun j => cos (INR j * alpha)) = 0.
Proof.
  intros HN HsN Hs. rewrite wsum_trapezoid by done.
  pose proof (cos_sum alpha N) as Hsum.
  replace ((INR N + 1 / 2) * alpha) with (INR N * alpha + alpha / 2) in Hsum
    by field.
  rewrite sin_plus, HsN in Hsum.
  simpl INR at 1. rewrite Rmult_0_l, cos_0.
  apply (Rmult_eq_reg_l (2 * sin (alpha / 2))); [|lra].
  rewrite Rmult_minus_distr_l, Hsum. field.
Qed.

(** The angles [p*pi/N] for an integer [p]. *)
Definition angle N p : R := IZR p * PI / INR N.

Lemma sin_half_angle_nonzero N p :
  (1 <= N)%nat -> p <> 0%Z -> (- 2 * Z.of_nat N < p < 2 * Z.of_nat N)%Z ->
  sin (angle N p / 2) <> 0.
Proof.
  intros HN Hp0 [Hlo Hhi]. unfold angle.
  pose proof (INR_pos N HN) as HposN. pose proof PI_RGT_0 as Hpi.
  set (t := PI / INR N / 2).
  assert (Ht : 0 < t).
  { unfold t. apply Rdiv_lt_0_compat; [|lra].
    apply Rdiv_lt_0_compat; lra. }
  assert (HPI : PI = 2 * INR N * t) by (unfold t; field; lra).
  replace (IZR p * PI / INR N / 2) with (IZR p * t) by (unfold t; field; lra).
  apply IZR_lt in Hlo, Hhi.
  rewrite mult_IZR, <- INR_IZR_INZ in Hlo, Hhi.
  destruct (Z_lt_le_dec p 0) as [Hneg|Hpos].
  - apply IZR_lt in Hneg. apply Rlt_not_eq, sin_lt_0_var; nra.
  - assert (0 < p)%Z as Hgt by lia. apply IZR_lt in Hgt.
    apply Rgt_not_eq, sin_gt_0; nra.
Qed.

Lemma sin_N_angle N p : (1 <= N)%nat -> sin (INR N * angle N p) = 0.
Proof.
  intros HN. unfold angle.
  replace (INR N * (IZR p * PI / INR N)) with (IZR p * PI)
    by (field; pose proof (INR_pos N HN); lra).
  apply sin_int_PI.
Qed.

Lemma wsum_angle_zero N p :
  (1 <= N)%nat -> p <> 0%Z -> (- 2 * Z.of_nat N < p < 2 * Z.of_nat N)%Z ->
  wsum N (fun j => cos (INR j * angle N p)) = 0.
Proof.
  intros HN Hp0 Hp. apply wsum_cos_zero; [done | |].
  - now apply sin_N_angle.
  - now apply sin_half_angle_nonzero.
Qed.

Lemma wsum_angle_0 N :
  (1 <= N)%nat -> wsum N (fun j => cos (INR j * angle N 0)) = INR N.
Proof.
  intros HN. apply wsum_one; [done|]. intros j. unfold angle.
  replace (INR j * (0 * PI / INR N)) with 0
    by (field; pose proof (INR_pos N HN); lra).
  apply cos_0.
Qed.

Lemma wsum_angle_2N N :
  (1 <= N)%nat ->
  wsum N (fun j => cos (INR j * angle N (2 * Z.of_nat N))) = INR N.
Proof.
  intros HN. apply wsum_one; [done|]. intros j. unfold angle.
  rewrite mult_IZR, <- INR_IZR_INZ.
  replace (INR j * (2 * INR N * PI / INR N)) with (0 + 2 * INR j * PI)
    by (field; pose proof (INR_pos N HN); lra).
  rewrite cos_period. apply cos_0.
Qed.

Lemma grid_product N m k j :
  (1 <= N)%nat ->
  cheb_T m (- cos (theta N j)) * cheb_T k (- cos (theta N j))
  = sgn m * sgn k / 2
    * (cos (INR j * angle N (Z.of_nat m - Z.of_nat k))
       + cos (INR j * angle N (Z.of_nat m + Z.of_nat k))).
Proof.
  intros HN. pose proof (INR_pos N HN) as HposN.
  rewrite !cheb_T_grid.
  replace (INR j * angle N (Z.of_nat m - Z.of_nat k))
    with (INR m * theta N j - INR k * theta N j)
    by (unfold angle, theta; rewrite minus_IZR, <- !INR_IZR_INZ; field; lra).
  replace (INR j * angle N (Z.of_nat m + Z.of_nat k))
    with (INR m * theta N j + INR k * theta N j)
    by (unfold angle, theta; rewrite plus_IZR, <- !INR_IZR_INZ; field; lra).
  pose proof (cos_product (INR m * theta N j) (INR k * theta N j)) as Hprod.
  replace (cos (INR m * theta N j - INR k * theta N j)
           + cos (INR m * theta N j + INR k * theta N j))
    with (2 * (cos (INR m * theta N j) * cos (INR k * theta N j))) by lra.
  field.
Qed.

(** Discrete orthogonality of T_0 .. T_N on the N+1 grid points. *)
Lemma discrete_orthogonality N m k :
  (1 <= N)%nat -> (m <= N)%nat -> (k <= N)%nat ->
  wsum N (fun j => cheb_T m (- cos (theta N j)) * cheb_T k (- cos (theta N j)))
  = if Nat.eq_dec m k then INR N * quad_weight N k / 2 else 0.
Proof.
  intros HN Hm Hk. unfold wsum at 1.
  rewrite (sum_eq _ (fun j =>
     sgn m * sgn k / 2
     * (cos (INR j * angle N (Z.of_nat m - Z.of_nat k))
        + cos (INR j * angle N (Z.of_nat m + Z.of_nat k)))
     / quad_weight N j))
    by (intros j _; now rewrite grid_product).
  fold (wsum N (fun j => sgn m * sgn k / 2
     * (cos (INR j * angle N (Z.of_nat m - Z.of_nat k))
        + cos (INR j * angle N (Z.of_nat m + Z.of_nat k))))).
  rewrite wsum_lin.
  destruct (Nat.eq_dec m k) as [->|Hmk].
  - replace (Z.of_nat k - Z.of_nat k)%Z with 0%Z by lia.
    rewrite wsum_angle_0 by done.
    pose proof (sgn_square k) as Hsq. unfold quad_weight.
    destruct (Nat.eq_dec k 0%nat) as [->|Hk0];
      [|destruct (Nat.eq_dec k N) as [->|HkN]].
    + change (Z.of_nat 0 + Z.of_nat 0)%Z with 0%Z.
      rewrite wsum_angle_0, Hsq by done. lra.
    + replace (Z.of_nat N + Z.of_nat N)%Z with (2 * Z.of_nat N)%Z by lia.
      rewrite wsum_angle_2N, Hsq by done. lra.
    + rewrite wsum_angle_zero, Hsq by lia. lra.
  - rewrite !wsum_angle_zero by lia. ring.
Qed.
End Orthogonality.

(** ** The transform reads only the first [len(X)] samples *)

Section Samples.
Context {F : Type} `{Num F}.
Implicit Types (U X : list F) (n k j t : nat).

Lemma partial_sum_ext n U U' X k t acc :
  (forall j, j < t -> nth j U (of_int 0) = nth j U' (of_int 0)) ->
  partial_sum n U X k t acc = partial_sum n U' X k t acc.
Proof.
  induction t as [|t IH]; intros Hagree; [reflexivity|].
  rewrite !partial_sum_S, IH by (intros; apply Hagree; lia).
  unfold term. now rewrite Hagree by lia.
Qed.

Lemma coeff_ext n U U' X k :
  (forall j, j <= n -> nth j U (of_int 0) = nth j U' (of_int 0)) ->
  coeff n U X k = coeff n U' X k.
Proof.
  intros Hagree. unfold coeff. f_equal.
  apply partial_sum_ext. intros j Hj. apply Hagree. lia.
Qed.

Lemma findCoeffs_agree n U U' X :
  length X = S n -> S n <= length U -> S n <= length U' ->
  firstn (S n) U = firstn (S n) U' ->
  findCoeffs U X = findCoeffs U' X.
Proof.
  intros HX HU HU' Hfirst.
  rewrite !(findCoeffs_spec n) by done. f_equal.
  apply map_ext. intros k. apply coeff_ext. intros j Hj.
  pose proof (nth_firstn (S n) U j (of_int 0)) as H1.
  pose proof (nth_firstn (S n) U' j (of_int 0)) as H2.
  destruct (Nat.ltb_spec j (S n)); [|lia].
  now rewrite <- H1, <- H2, Hfirst.
Qed.
End Samples.

(** ** Exact arithmetic: sampling a basis polynomial on the grid *)

Section Recovery.
Local Open Scope R_scope.
Implicit Types (N j k m : nat).

(** The vector with 1 at index [m] and 0 elsewhere. *)
Definition unit_vector (len m : nat) : list R := <[m := 1]> (replicate len 0).

Lemma length_unit_vector len m : length (unit_vector len m) = len.
Proof. unfold unit_vector. now rewrite length_insert, length_replicate. Qed.

Lemma nth_unit_vector len m k :
  (k < len)%nat ->
  nth k (unit_vector len m) 0 = if Nat.eq_dec m k then 1 else 0.
Proof.
  intros Hk. apply nth_lookup_Some. unfold unit_vector.
  destruct (Nat.eq_dec m k) as [->|Hne].
  - apply list_lookup_insert_eq. now rewrite length_replicate.
  - rewrite list_lookup_insert_ne by done. now apply lookup_replicate_2.
Qed.

(** The grid [GLpoints N] returns, and samples of T_m on it. *)
Definition grid N : list R := map (glpoint (Z.of_nat N)) (seq 0 (S N)).

Lemma length_grid N : length (grid N) = S N.
Proof. apply length_glpoints. Qed.

Lemma nth_grid N j : (j <= N)%nat -> nth j (grid N) 0 = - cos (theta N j).
Proof.
  intros Hj. unfold grid. now rewrite nth_glpoints, glpoint_R.
Qed.

Lemma nth_samples N m j :
  (j <= N)%nat ->
  nth j (map (cheb_T m) (grid N)) 0 = cheb_T m (- cos (theta N j)).
Proof.
  intros Hj. rewrite (nth_indep _ 0 (cheb_T m 0))
    by (rewrite length_map, length_grid; lia).
  now rewrite map_nth, nth_grid.
Qed.

Lemma coeff_basis N m k :
  (1 <= N)%nat -> (m <= N)%nat -> (k <= N)%nat ->
  coeff N (map (cheb_T m) (grid N)) (grid N) k
  = if Nat.eq_dec m k then 1 else 0.
Proof.
  intros HN Hm Hk. rewrite coeff_R.
  rewrite (sum_eq _ (fun j =>
     cheb_T m (- cos (theta N j)) * cheb_T k (- cos (theta N j))
     / quad_weight N j))
    by (intros j Hj; now rewrite nth_samples, nth_grid).
  fold (wsum N (fun j =>
     cheb_T m (- cos (theta N j)) * cheb_T k (- cos (theta N j)))).
  rewrite discrete_orthogonality by done.
  pose proof (INR_pos N HN). pose proof (quad_weight_pos N k).
  destruct (Nat.eq_dec m k); field; lra.
Qed.

Lemma findCoeffs_basis N m :
  (1 <= N)%nat -> (m <= N)%nat ->
  findCoeffs (map (cheb_T m) (grid N)) (grid N) = Ok (unit_vector (S N) m).
Proof.
  intros HN Hm.
  rewrite (findCoeffs_spec N) by (rewrite ?length_map, length_grid; lia).
  f_equal. apply (nth_ext _ _ 0 0).
  - now rewrite length_coeffs, length_unit_vector.
  - intros k Hk. rewrite length_coeffs in Hk.
    rewrite nth_coeffs, nth_unit_vector by lia.
    apply coeff_basis; lia.
Qed.

Lemma constant_samples (l : list R) :
  map (cheb_T 0) l = replicate (length l) 1.
Proof. induction l as [|x l IH]; [reflexivity|]. simpl. now rewrite IH. Qed.
End Recovery.

(** ** Exact arithmetic: what the grid and the transform satisfy

    The statements of this part hold when the code's operations are read
    as operations on real numbers.  They are not statements about a
    binary64 run, where every operation rounds and [np.cos] returns the
    value of the platform's library. *)

Section ExactStatements.
Local Open Scope R_scope.

(** In exact arithmetic the coefficient is the quadrature formula with the
    Chebyshev polynomial of the three-term recurrence. *)
Lemma findCoeffs_formula_exact (N : nat) (U X : list R) :
  (1 <= N)%nat -> length U = S N -> length X = S N ->
  exists uhat : list R,
    findCoeffs U X = Ok uhat /\
    length uhat = S N /\
    forall k : nat, (k <= N)%nat ->
      nth k uhat 0
      = 2 / (INR N * quad_weight N k)
        * sum_f_R0 (fun j => nth j U 0 * cheb_T k (nth j X 0) / quad_weight N j) N.
Proof.
  intros HN HU HX. exists (map (coeff N U X) (seq 0 (S N))).
  split; [|split].
  - apply findCoeffs_spec; lia.
  - apply length_coeffs.
  - intros k Hk. rewrite nth_coeffs by done. apply coeff_R.
Qed.

(** In exact arithmetic the grid runs from -1 to 1 and is strictly
    increasing. *)
Lemma GLpoints_increasing_exact (N : nat) :
  (1 <= N)%nat ->
  exists X : list R,
    GLpoints (Z.of_nat N) = Ok X /\
    length X = S N /\
    nth 0 X 0 = -1 /\
    nth N X 0 = 1 /\
    forall i j : nat, (i < j)%nat -> (j <= N)%nat -> nth i X 0 < nth j X 0.
Proof.
  intros HN. exists (grid N). split; [|split; [|split; [|split]]].
  - now apply GLpoints_spec.
  - apply length_grid.
  - rewrite nth_grid, theta_0, cos_0 by lia. reflexivity.
  - rewrite nth_grid, theta_N, cos_PI by lia. ring.
  - intros i j Hij Hj. rewrite !nth_grid by lia.
    now apply grid_increasing.
Qed.

(** In exact arithmetic the grid is antisymmetric about 0. *)
Lemma GLpoints_antisymmetric_exact (N : nat) :
  (1 <= N)%nat ->
  exists X : list R,
    GLpoints (Z.of_nat N) = Ok X /\
    length X = S N /\
    forall j : nat, (j <= N)%nat -> nth j X 0 = - nth (N - j) X 0.
Proof.
  intros HN. exists (grid N).
  split; [now apply GLpoints_spec|]. split; [apply length_grid|].
  intros j Hj. rewrite !nth_grid by lia.
  rewrite theta_reflect, cos_reflect by done. ring.
Qed.

(** In exact arithmetic the samples of T_m on the grid are transformed
    into the unit vector at index m. *)
Lemma findCoeffs_recovers_basis_exact (N m : nat) :
  (1 <= N)%nat -> (m <= N)%nat ->
  exists X : list R,
    GLpoints (Z.of_nat N) = Ok X /\
    findCoeffs (map (cheb_T m) X) X = Ok (unit_vector (S N) m) /\
    findCoeffs (replicate (S N) 1) X = Ok (1 :: replicate N 0).
Proof.
  intros HN Hm. exists (grid N). split; [|split].
  - now apply GLpoints_spec.
  - now apply findCoeffs_basis.
  - rewrite <- (length_grid N) at 1. rewrite <- constant_samples.
    rewrite findCoeffs_basis by lia. reflexivity.
Qed.
End ExactStatements.

(** ** Number types whose arithmetic is exact

    The laws below hold of the reals and of any field; they do not hold of
    binary64, where each operation rounds.  They are what the linearity of
    the transform rests on. *)

Class ExactArith (F : Type) `{Num F} : Prop := {
  exact_ring :
    ring_theory (of_int 0) (of_int 1) fadd fmul fsub fneg (@eq F);
  exact_div_add :
    forall x y z : F, fdiv (fadd x y) z = fadd (fdiv x z) (fdiv y z);
  exact_div_mul :
    forall a x z : F, fdiv (fmul a x) z = fmul a (fdiv x z)
}.

#[export] Instance R_ExactArith : ExactArith R.
Proof.
  split.
  - exact RTheory.
  - intros x y z. simpl. unfold Rdiv. ring.
  - intros a x z. simpl. unfold Rdiv. ring.
Qed.

Lemma fold_left_pointwise {A B : Type} (f g : A -> B -> A) (l : list B) (a : A) :
  (forall a' b, f a' b = g a' b) -> fold_left f l a = fold_left g l a.
Proof.
  intros Hfg. revert a. induction l as [|b l IH]; intros a; [reflexivity|].
  simpl. now rewrite Hfg, IH.
Qed.

Section LinearCombination.
Context {F : Type} `{Num F}.
Implicit Types (U X : list F) (n k j t : nat).





(** T_k by the three-term recurrence, in the operations of the number
    type: T_0 = 1, T_1 = x, T_(k+1) = 2x*T_k - T_(k-1). *)
Fixpoint cheb_rec_pair (k : nat) (x : F) : F * F :=
  match k with
  | O => (of_int 1, x)
  | S k' =>
      let p := cheb_rec_pair k' x in
      (snd p, fsub (fmul (fmul (of_int 2) x) (snd p)) (fst p))
  end.

Definition cheb_rec (k : nat) (x : F) : F := fst (cheb_rec_pair k x).

(** The coefficient as the specification writes it:
    (2 / (N c_k)) * sum_j U[j] * T_k(X[j]) / c_j, the sum taken from
    j = 0 upwards. *)
Definition formula_coeff n U X k : F :=
  fmul (fdiv (of_int 2) (fmul (of_int (Z.of_nat n)) (cw n k)))
       (fold_left
          (fun a j =>
             fadd a (fdiv (fmul (nth j U (of_int 0))
                                (cheb_rec k (nth j X (of_int 0))))
                          (cw n j)))
          (seq 0 (S n)) (of_int 0)).
End LinearCombination.

Section Exact.
Context {F : Type} `{ExactArith F}.
Implicit Types (U X : list F) (n k j t : nat).

Add Ring exact_arith_ring : exact_ring.

(** The polynomials Clenshaw's recursion carries on a one-hot array. *)
Fixpoint second_kind_pair (t : nat) (x : F) : F * F :=
  match t with
  | O => (of_int 0, of_int 1)
  | S t' =>
      let p := second_kind_pair t' x in
      (snd p, fsub (fmul (fmul (of_int 2) x) (snd p)) (fst p))
  end.

Lemma clenshaw_iter_exact t (x : F) :
  Nat.iter t (clenshaw_step (fmul (of_int 2) x)) (of_int 0, of_int 1)
  = (fneg (fst (second_kind_pair t x)), snd (second_kind_pair t x)).
Proof.
  induction t as [|t IH].
  - simpl. f_equal. ring.
  - rewrite Nat.iter_succ, IH. unfold clenshaw_step. simpl.
    f_equal; ring.
Qed.

Lemma cheb_rec_second_kind t (x : F) :
  cheb_rec_pair (S t) x
  = (fsub (fmul x (snd (second_kind_pair t x))) (fst (second_kind_pair t x)),
     fsub (fmul x (snd (second_kind_pair (S t) x)))
          (fst (second_kind_pair (S t) x))).
Proof.
  induction t as [|t IH].
  - simpl. f_equal; ring.
  - change (cheb_rec_pair (S (S t)) x)
      with (snd (cheb_rec_pair (S t) x),
            fsub (fmul (fmul (of_int 2) x) (snd (cheb_rec_pair (S t) x)))
                 (fst (cheb_rec_pair (S t) x))).
    rewrite IH. simpl. f_equal. ring.
Qed.

(** With exact arithmetic numpy's evaluator on the one-hot array is T_k. *)
Lemma chebval_onehot_exact k (x : F) : chebval_onehot k x = cheb_rec k x.
Proof.
  destruct k as [|t]; unfold chebval_onehot, cheb_rec.
  - simpl. ring.
  - rewrite clenshaw_iter_exact, cheb_rec_second_kind. simpl. ring.
Qed.

Lemma coeff_formula_exact n U X k : coeff n U X k = formula_coeff n U X k.
Proof.
  unfold coeff, formula_coeff, partial_sum, term. f_equal.
  apply fold_left_pointwise. intros a j. now rewrite chebval_onehot_exact.
Qed.


End Exact.

(** ** Binary64: integers, zero divisors and infinities

    Facts about the primitive floats, from the specification of their
    operations ([of_uint63_spec], [mul_spec]). *)

Section Binary64.
Local Open Scope Z_scope.
















End Binary64.

(** * The properties of the specification *)

Section GridProperties.
Local Open Scope R_scope.

(** C6. For every N >= 1, [GLpoints N] returns a sequence of length N+1
    whose element at index j is [-cos(pi*j/N)], for every j in 0..N.  The
    statement holds for any number type: the value is the one produced by
    the code's own operations, [-np.cos(np.pi*j/N)]; [GLpoints] is a
    function, so the result is determined by N. *)
Theorem GLpoints_values {F : Type} `{Num F} `{Trig F} (N : Z) :
  (1 <= N)%Z ->
  exists X : list F,
    GLpoints N = Ok X /\
    length X = Z.to_nat (N + 1) /\
    forall j : Z, (0 <= j <= N)%Z ->
      getitem X j = Ok (fneg (fcos (fdiv (fmul fpi (of_int j)) (of_int N)))).
Proof.
  intros HN. exists (map (glpoint N) (seq 0 (S (Z.to_nat N)))).
  split; [|split].
  - rewrite <- (Z2Nat.id N) at 1 2 by lia. apply GLpoints_spec. lia.
  - rewrite length_glpoints. lia.
  - intros j Hj. rewrite <- (Z2Nat.id j) at 1 by lia.
    rewrite (getitem_nat _ _ (of_int 0)) by (rewrite length_glpoints; lia).
    rewrite nth_glpoints by lia. unfold glpoint.
    now rewrite Z2Nat.id by lia.
Qed.

Lemma GLpoints_values_witness :
  exists X : list R,
    GLpoints 2 = Ok X /\
    length X = Z.to_nat (2 + 1) /\
    forall j : Z, (0 <= j <= 2)%Z ->
      getitem X j = Ok (fneg (fcos (fdiv (fmul fpi (of_int j)) (of_int 2)))).
Proof. apply (GLpoints_values 2%Z). lia. Defined.
End GridProperties.

Section GridErrors.
Context {F : Type} `{Num F} `{Trig F}.

(** C3, as the code has it.  [GLpoints] validates nothing: N = 0 fails in
    the first pass of the loop with Python's ZeroDivisionError, N <= -2
    fails in [np.zeros] with a ValueError, and N = -1 returns the empty
    sequence. *)
Theorem GLpoints_nonpositive (N : Z) :
  (N <= 0)%Z ->
  GLpoints N
  = if (N =? 0)%Z then Raise ZeroDivisionError
    else if (N =? -1)%Z then Ok []
         else Raise ValueError.
Proof.
  intros HN.
  destruct (Z.eqb_spec N 0) as [->|Hnot0]; [apply GLpoints_zero|].
  destruct (Z.eqb_spec N (-1)) as [->|Hnot1]; [apply GLpoints_minus_one|].
  apply GLpoints_negative. lia.
Qed.
End GridErrors.

Lemma GLpoints_nonpositive_witness :
  @GLpoints R _ _ (-3)
  = if (-3 =? 0)%Z then Raise ZeroDivisionError
    else if (-3 =? -1)%Z then Ok []
         else Raise ValueError.
Proof. apply (GLpoints_nonpositive (-3)%Z). lia. Defined.

(** C3 fails at N = -1: the call returns, with an empty grid. *)
Lemma GLpoints_minus_one_returns :
  (-1 < 0)%Z /\ @GLpoints R _ _ (-1) = Ok [].
Proof. split; [lia | reflexivity]. Qed.

Section TransformFormula.
Context {F : Type} `{Num F}.

(** C1, as the code has it.  For every N >= 1 and U, X of length N+1,
    [findCoeffs U X] returns a vector [uhat] of length N+1 with, for each
    k in 0..N,
    uhat[k] = (2 / (N * c_k)) * (((0 + t_0) + t_1) + ... + t_N),
    t_j = U[j] * tau_k(X[j]) / c_j, c_0 = c_N = 2 and c_j = 1 otherwise,
    every operation being the one of the number type, in this order, and
    tau_k(x) being what numpy's evaluator returns at x on the one-hot
    array of length k+1 (Clenshaw's recursion).  This holds for every
    number type, binary64 included. *)
Theorem findCoeffs_formula (N : nat) (U X : list F) :
  1 <= N -> length U = S N -> length X = S N ->
  exists uhat : list F,
    findCoeffs U X = Ok uhat /\
    length uhat = S N /\
    forall k : nat, k <= N ->
      (exists d : list F,
          onehot (Z.of_nat k) = Ok d /\
          forall x : F, chebval x d = Ok (chebval_onehot k x)) /\
      nth k uhat (of_int 0)
      = fmul (fdiv (of_int 2) (fmul (of_int (Z.of_nat N)) (cw N k)))
             (fold_left
                (fun a j =>
                   fadd a (fdiv (fmul (nth j U (of_int 0))
                                      (chebval_onehot k (nth j X (of_int 0))))
                                (cw N j)))
                (seq 0 (S N)) (of_int 0)).
Proof.
  intros HN HU HX. exists (map (coeff N U X) (seq 0 (S N))).
  split; [|split].
  - apply findCoeffs_spec; lia.
  - apply length_coeffs.
  - intros k Hk. split.
    + exists (dlist k). split; [apply onehot_spec|].
      intros x. apply chebval_onehot_spec.
    + rewrite nth_coeffs by done. reflexivity.
Qed.
End TransformFormula.

Lemma findCoeffs_formula_witness :
  exists uhat : list float,
    findCoeffs [1; 0; 1]%float [-1; 0; 1]%float = Ok uhat /\
    length uhat = 3 /\
    forall k : nat, k <= 2 ->
      (exists d : list float,
          onehot (Z.of_nat k) = Ok d /\
          forall x : float, chebval x d = Ok (chebval_onehot k x)) /\
      nth k uhat (of_int 0)
      = fmul (fdiv (of_int 2) (fmul (of_int (Z.of_nat 2)) (cw 2 k)))
             (fold_left
                (fun a j =>
                   fadd a (fdiv (fmul (nth j [1; 0; 1]%float (of_int 0))
                                      (chebval_onehot k
                                         (nth j [-1; 0; 1]%float (of_int 0))))
                                (cw 2 j)))
                (seq 0 3) (of_int 0)).
Proof. apply (findCoeffs_formula 2); [lia | reflexivity | reflexivity]. Defined.

(** C1 fails on binary64 when T_k is the three-term recurrence of the
    specification: at x = 0.9 the evaluator's T_3 and the recurrence's
    T_3 round differently, so coefficient 3 differs in its last bits; and
    at an infinite grid point the evaluator's T_0 is 1 + 0*inf = NaN
    where the recurrence's T_0 is 1. *)
Lemma findCoeffs_formula_fails_on_binary64 :
  (findCoeffs [0; 0; 1; 0]%float
              [-1; -0x1.ccccccccccccdp-1; 0x1.ccccccccccccdp-1; 1]%float
   = Ok [0x1.5555555555555p-2; 0x1.3333333333333p-1;
         0x1.a740da740da75p-2; 0x1.26e978d4fdf45p-4]%float /\
   formula_coeff 3 [0; 0; 1; 0]%float
              [-1; -0x1.ccccccccccccdp-1; 0x1.ccccccccccccdp-1; 1]%float 3
   = 0x1.26e978d4fdf42p-4%float /\
   PrimFloat.eqb 0x1.26e978d4fdf45p-4 0x1.26e978d4fdf42p-4 = false)
  /\
  (findCoeffs [1; 1; 1]%float [infinity; 0; 1]%float
   = Ok [nan; infinity; infinity] /\
   formula_coeff 2 [1; 1; 1]%float [infinity; 0; 1]%float 0 = 1%float).
Proof. repeat split; vm_compute; reflexivity. Qed.

Section TransformErrors.
Context {F : Type} `{Num F}.

(** C2, as the code has it.  [findCoeffs] never compares the two lengths.
    With len(U) <> len(X): a U shorter than X makes it fail with
    IndexError, raised when [U[len(U)]] is read during the first pass,
    before anything is returned; an empty X makes it fail with IndexError
    at [c[0]=2]; and with len(U) > len(X) >= 1 nothing is signalled and a
    vector of length len(X) is returned. *)
Theorem findCoeffs_length_mismatch (U X : list F) :
  length U <> length X ->
  (length U < length X /\ findCoeffs U X = Raise IndexError)
  \/ (length X = 0 /\ findCoeffs U X = Raise IndexError)
  \/ (1 <= length X < length U /\
      exists uhat : list F,
        findCoeffs U X = Ok uhat /\ length uhat = length X).
Proof.
  intros Hne. destruct (length X) as [|n] eqn:Hlen.
  - right. left. split; [done|].
    destruct X; [apply findCoeffs_empty | discriminate].
  - destruct (le_lt_dec (S n) (length U)) as [Hle|Hlt].
    + right. right. split; [lia|].
      exists (map (coeff n U X) (seq 0 (S n))).
      split; [now apply findCoeffs_spec | apply length_coeffs].
    + left. split; [lia|]. apply findCoeffs_short. lia.
Qed.

(** C9. With len(U) > len(X) >= 2, [findCoeffs U X] returns, without any
    exception, a vector of length len(X); any sample vector with the same
    first len(X) entries, the truncated one included, gives the same
    result. *)
Theorem findCoeffs_ignores_extra (U X : list F) :
  2 <= length X -> length X < length U ->
  exists uhat : list F,
    findCoeffs U X = Ok uhat /\
    length uhat = length X /\
    findCoeffs (firstn (length X) U) X = Ok uhat /\
    forall U' : list F,
      length X <= length U' ->
      firstn (length X) U' = firstn (length X) U ->
      findCoeffs U' X = Ok uhat.
Proof.
  intros HX HU. destruct (length X) as [|n] eqn:Hlen; [lia|].
  exists (map (coeff n U X) (seq 0 (S n))).
  assert (Hret : findCoeffs U X = Ok (map (coeff n U X) (seq 0 (S n))))
    by (apply findCoeffs_spec; lia).
  split; [exact Hret|]. split; [apply length_coeffs|].
  assert (Hsame : forall U' : list F,
             S n <= length U' -> firstn (S n) U' = firstn (S n) U ->
             findCoeffs U' X = Ok (map (coeff n U X) (seq 0 (S n)))).
  { intros U' HU' Hfirst. rewrite <- Hret.
    apply (findCoeffs_agree n); [done | lia | lia | done]. }
  split; [|exact Hsame].
  apply Hsame.
  - rewrite length_take. lia.
  - rewrite take_take. f_equal. lia.
Qed.
End TransformErrors.

Lemma findCoeffs_length_mismatch_witness :
  (length [1]%float < length [-1; 1]%float /\
   findCoeffs [1]%float [-1; 1]%float = Raise IndexError)
  \/ (length [-1; 1]%float = 0 /\
      findCoeffs [1]%float [-1; 1]%float = Raise IndexError)
  \/ (1 <= length [-1; 1]%float < length [1]%float /\
      exists uhat : list float,
        findCoeffs [1]%float [-1; 1]%float = Ok uhat /\
        length uhat = length [-1; 1]%float).
Proof. apply findCoeffs_length_mismatch. simpl. lia. Defined.

Lemma findCoeffs_ignores_extra_witness :
  exists uhat : list float,
    findCoeffs [1; 2; 3]%float [-1; 1]%float = Ok uhat /\
    length uhat = length [-1; 1]%float /\
    findCoeffs (firstn (length [-1; 1]%float) [1; 2; 3]%float) [-1; 1]%float
    = Ok uhat /\
    forall U' : list float,
      length [-1; 1]%float <= length U' ->
      firstn (length [-1; 1]%float) U'
      = firstn (length [-1; 1]%float) [1; 2; 3]%float ->
      findCoeffs U' [-1; 1]%float = Ok uhat.
Proof. apply findCoeffs_ignores_extra; simpl; lia. Defined.

(** C2 fails when U is the longer sequence: the call returns. *)
Lemma findCoeffs_longer_U_returns :
  length [1; 2; 3]%float <> length [-1; 1]%float /\
  findCoeffs [1; 2; 3]%float [-1; 1]%float = Ok [1.5; 0.5]%float.
Proof. split; [simpl; lia | vm_compute; reflexivity]. Qed.

Section TransformLinearity.
Context {F : Type} `{ExactArith F}.

End TransformLinearity.







(** * Further properties of the code *)

Section Outcome.
Context {F : Type} `{Num F}.

(** X1. Whatever the number type, [findCoeffs U X] has exactly two
    outcomes.  With 1 <= len(X) <= len(U) it returns a vector as long as
    X; with an empty X, or a U shorter than X, it raises IndexError.  No
    other exception is ever raised. *)
Theorem findCoeffs_outcomes (U X : list F) :
  (1 <= length X <= length U /\
   exists uhat : list F, findCoeffs U X = Ok uhat /\ length uhat = length X)
  \/
  ((length X = 0 \/ length U < length X) /\
   findCoeffs U X = Raise IndexError).
Proof.
  destruct (length X) as [|n] eqn:Hlen.
  - right. split; [now left|].
    destruct X; [apply findCoeffs_empty | discriminate].
  - destruct (le_lt_dec (S n) (length U)) as [Hle|Hlt].
    + left. split; [lia|].
      exists (map (coeff n U X) (seq 0 (S n))).
      split; [now apply findCoeffs_spec | apply length_coeffs].
    + right. split; [now right|].
      apply findCoeffs_short. lia.
Qed.
End Outcome.
